(** * InMemoryDatabase: a keyed store with per-key locks and waiter queues

    A shallow embedding of [src/main.py] (class [InMemoryDatabase]) and the
    properties of its lock manager and caller-gated mutations.

    The four dictionaries of the Python object are finite maps; a method is
    a computation over the store that either returns a value or raises, and
    in both cases leaves a (possibly mutated) store behind. *)

From stdpp Require Import gmap strings list fin_maps sorting pretty.
From Stdlib Require Import ZArith.

Local Open Scope Z_scope.
Set Warnings "-clear-no-such-hyp".

(** ** The store *)

(** [self.records], [self.modification_count], [self.locks] and
    [self.lock_queues] of [__init__].  Python's [int] is unbounded: [Z]. *)
Record db : Type := Db {
  records : gmap string (gmap string Z);
  modification_count : gmap string Z;
  locks : gmap string string;
  lock_queues : gmap string (list string)
}.

(** The object built by [InMemoryDatabase()]. *)
Definition init : db := Db ∅ ∅ ∅ ∅.

Definition with_records (f : gmap string (gmap string Z) → gmap string (gmap string Z))
    (s : db) : db :=
  Db (f (records s)) (modification_count s) (locks s) (lock_queues s).

Definition with_modification_count (f : gmap string Z → gmap string Z) (s : db) : db :=
  Db (records s) (f (modification_count s)) (locks s) (lock_queues s).

Definition with_locks (f : gmap string string → gmap string string) (s : db) : db :=
  Db (records s) (modification_count s) (f (locks s)) (lock_queues s).

Definition with_lock_queues (f : gmap string (list string) → gmap string (list string))
    (s : db) : db :=
  Db (records s) (modification_count s) (locks s) (f (lock_queues s)).

(** ** Computations: state plus exceptions *)

Inductive exception : Type := KeyError | IndexError.

Inductive outcome (A : Type) : Type :=
| Return (a : A)
| Raise (e : exception).
Arguments Return {A} a.
Arguments Raise {A} e.

(** A method body: run on a store, it yields an outcome and the store it
    leaves.  An exception keeps the mutations done before it was raised. *)
Definition M (A : Type) : Type := db → outcome A * db.

Definition ret {A} (a : A) : M A := λ s, (Return a, s).

Definition bind {A B} (m : M A) (k : A → M B) : M B :=
  λ s, match m s with
       | (Return a, s') => k a s'
       | (Raise e, s') => (Raise e, s')
       end.

Definition raise {A} (e : exception) : M A := λ s, (Raise e, s).

Definition gets {A} (f : db → A) : M A := λ s, (Return (f s), s).

Definition modify (f : db → db) : M unit := λ s, (Return tt, f s).

Declare Scope py_scope.
Delimit Scope py_scope with py.
Notation "x <- m ;; k" := (bind m (λ x, k))
  (at level 100, m at next level, right associativity) : py_scope.
Notation "m ;; k" := (bind m (λ _, k))
  (at level 100, right associativity) : py_scope.
Local Open Scope py_scope.

(** [k in d] *)
Definition contains {A} (d : gmap string A) (k : string) : bool :=
  match d !! k with Some _ => true | None => false end.

(** [d[k]] as an expression: [KeyError] when [k] is missing. *)
Definition subscript {A} (d : gmap string A) (k : string) : M A :=
  match d !! k with Some v => ret v | None => raise KeyError end.

(** [self.<attr>[k]] *)
Definition item {A} (attr : db → gmap string A) (k : string) : M A :=
  d <- gets attr ;; subscript d k.

(** [del self.<attr>[k]]: [KeyError] when [k] is missing. *)
Definition del_item {A} (attr : db → gmap string A)
    (upd : (gmap string A → gmap string A) → db → db) (k : string) : M unit :=
  d <- gets attr ;;
  if contains d k then modify (upd (delete k)) else raise KeyError.

(** ** The methods *)

(** [inc]: does nothing. *)
Definition inc (key field : string) (value : Z) : M unit := ret tt.

(** [delete]: does nothing. *)
Definition delete_ (key field : string) : M unit := ret tt.

(** [key in self.records and field in self.records[key]] *)
Definition has_field (s : db) (key field : string) : bool :=
  match records s !! key with
  | Some r => contains r field
  | None => false
  end.

(** [get] *)
Definition get (key field : string) : M (option Z) :=
  present <- gets (λ s, has_field s key field) ;;
  if present then
    r <- item records key ;;
    v <- subscript r field ;;
    ret (Some v)
  else ret None.

(** [key not in self.locks or self.locks[key] != caller_id] *)
Definition not_holder (s : db) (key caller_id : string) : bool :=
  match locks s !! key with
  | None => true
  | Some owner => negb (bool_decide (owner = caller_id))
  end.

(** [set_or_inc_by_caller] *)
Definition set_or_inc_by_caller (key field : string) (value : Z) (caller_id : string)
    : M (option Z) :=
  denied <- gets (λ s, not_holder s key caller_id) ;;
  if denied then ret None else
  known <- gets (λ s, contains (records s) key) ;;
  (if known then ret tt
   else
     modify (with_records <[key := ∅]>) ;;
     modify (with_modification_count <[key := 0]>)) ;;
  r <- item records key ;;
  (if contains r field then
     old <- subscript r field ;;
     modify (with_records <[key := <[field := old + value]> r]>)
   else
     modify (with_records <[key := <[field := value]> r]>)) ;;
  count <- item modification_count key ;;
  modify (with_modification_count <[key := count + 1]>) ;;
  r' <- item records key ;;
  v <- subscript r' field ;;
  ret (Some v).

(** [delete_by_caller] *)
Definition delete_by_caller (key field caller_id : string) : M bool :=
  denied <- gets (λ s, not_holder s key caller_id) ;;
  if denied then ret false else
  present <- gets (λ s, has_field s key field) ;;
  if present then
    r <- item records key ;;
    (if contains r field
     then modify (with_records <[key := delete field r]>)
     else raise KeyError) ;;
    count <- item modification_count key ;;
    modify (with_modification_count <[key := count + 1]>) ;;
    r' <- item records key ;;
    (if bool_decide (r' = ∅) then
       del_item records with_records key ;;
       del_item modification_count with_modification_count key ;;
       del_item locks with_locks key ;;
       modify (with_lock_queues (delete key))
     else ret tt) ;;
    ret true
  else ret false.

(** [lock]; the Python [None] result is [None], a string result is [Some]. *)
Definition lock (key caller_id : string) : M (option string) :=
  known <- gets (λ s, contains (records s) key) ;;
  if negb known then ret (Some "invalid_request") else
  locked <- gets (λ s, contains (locks s) key) ;;
  if negb locked then
    modify (with_locks <[key := caller_id]>) ;;
    ret (Some "acquired")
  else
  owner <- item locks key ;;
  if bool_decide (owner = caller_id) then ret None else
  queued <- gets (λ s, contains (lock_queues s) key) ;;
  (if negb queued then modify (with_lock_queues <[key := []]>) else ret tt) ;;
  q <- item lock_queues key ;;
  (if bool_decide (caller_id ∈@{list string} q) then ret tt
   else modify (with_lock_queues <[key := (q ++ [caller_id])%list]>)) ;;
  ret (Some "wait").

(** [key in self.lock_queues and self.lock_queues[key]] *)
Definition has_waiter (s : db) (key : string) : bool :=
  match lock_queues s !! key with
  | Some (_ :: _) => true
  | Some [] => false
  | None => false
  end.

(** [unlock] *)
Definition unlock (key : string) : M (option string) :=
  locked <- gets (λ s, contains (locks s) key) ;;
  if negb locked then ret None else
  del_item locks with_locks key ;;
  waiting <- gets (λ s, has_waiter s key) ;;
  if waiting then
    q <- item lock_queues key ;;
    match q with
    | [] => raise IndexError
    | next_caller :: rest =>
        modify (with_lock_queues <[key := rest]>) ;;
        modify (with_locks <[key := next_caller]>) ;;
        ret (Some "released")
    end
  else ret (Some "released").

(** The sort key [(-x[1], x[0])] of [top_n_keys], compared as Python
    compares tuples. *)
Definition rank_le (x y : string * Z) : Prop :=
  - x.2 < - y.2 ∨ (- x.2 = - y.2 ∧ String.leb x.1 y.1 = true).

Global Instance rank_le_dec x y : Decision (rank_le x y).
Proof. unfold rank_le. apply _. Defined.

(** [l[:n]] for a Python integer [n]. *)
Definition slice_to {A} (n : Z) (l : list A) : list A :=
  if decide (0 ≤ n) then take (Z.to_nat n) l
  else take (length l - Z.to_nat (- n))%nat l.

(** [top_n_keys].  The keys of a dictionary are distinct, so the sort key
    is injective on its items and the sorted list does not depend on the
    order in which [items()] enumerates them. *)
Definition top_n_keys (n : Z) : M (list string) :=
  counts <- gets modification_count ;;
  let sorted_keys := merge_sort rank_le (map_to_list counts) in
  let result := (λ kc : string * Z, kc.1 +:+ "(" +:+ pretty kc.2 +:+ ")") <$> sorted_keys in
  ret (slice_to n result).

(** ** Sequences of calls *)

(** A call of one of the public methods, and the Python value it returns. *)
Inductive call : Type :=
| Inc (key field : string) (value : Z)
| Delete (key field : string)
| Get (key field : string)
| SetOrIncByCaller (key field : string) (value : Z) (caller_id : string)
| DeleteByCaller (key field caller_id : string)
| Lock (key caller_id : string)
| Unlock (key : string)
| TopNKeys (n : Z).

Inductive value : Type :=
| VNone
| VInt (z : Z)
| VBool (b : bool)
| VStr (s : string)
| VList (l : list string).

Definition of_int (o : option Z) : value :=
  match o with Some z => VInt z | None => VNone end.

Definition of_str (o : option string) : value :=
  match o with Some z => VStr z | None => VNone end.

Definition perform (c : call) : M value :=
  match c with
  | Inc key field v => inc key field v ;; ret VNone
  | Delete key field => delete_ key field ;; ret VNone
  | Get key field => r <- get key field ;; ret (of_int r)
  | SetOrIncByCaller key field v caller_id =>
      r <- set_or_inc_by_caller key field v caller_id ;; ret (of_int r)
  | DeleteByCaller key field caller_id =>
      r <- delete_by_caller key field caller_id ;; ret (VBool r)
  | Lock key caller_id => r <- lock key caller_id ;; ret (of_str r)
  | Unlock key => r <- unlock key ;; ret (of_str r)
  | TopNKeys n => r <- top_n_keys n ;; ret (VList r)
  end.

(** A client issuing the calls one after the other on the same object; a
    call that raises does not stop the client. *)
Fixpoint run (cs : list call) (s : db) : list (outcome value) * db :=
  match cs with
  | [] => ([], s)
  | c :: cs' =>
      let '(o, s') := perform c s in
      let '(os, s'') := run cs' s' in
      (o :: os, s'')
  end.

(** The stores reachable from [s0] by calls of the public methods. *)
Definition reachable_from (s0 s : db) : Prop := ∃ cs, (run cs s0).2 = s.

Definition reachable : db → Prop := reachable_from init.

(** ** Some stores *)

(** Record [k1] with field [f = 5], written once, locked by [A]. *)
Definition held_by_A : db :=
  Db {["k1" := {["f" := 5]}]} {["k1" := 1]} {["k1" := "A"]} ∅.

(** The same with [B] queued behind [A]. *)
Definition B_waiting : db :=
  Db {["k1" := {["f" := 5]}]} {["k1" := 1]} {["k1" := "A"]} {["k1" := ["B"]]}.

(** [A] holds the lock of a key that has no record. *)
Definition lock_without_record : db :=
  Db ∅ ∅ {["k1" := "A"]} ∅.

(** Counts as in the ranking example of the specification. *)
Definition ranked : db :=
  Db ∅ (<["a" := 3]> (<["b" := 3]> {["c" := 1]})) ∅ ∅.

(** ** Invariants of the store *)

(** A record exists exactly when its modification count does. *)
Definition counts_mirror_records (s : db) : Prop :=
  dom (modification_count s) =@{gset string} dom (records s).

(** No record is an empty dictionary. *)
Definition records_nonempty (s : db) : Prop :=
  map_Forall (λ _ r, r ≠ ∅) (records s).

(** Only keys that have a record are locked. *)
Definition locked_keys_exist (s : db) : Prop :=
  dom (locks s) ⊆@{gset string} dom (records s).

(** Only keys that have a record have a queue entry. *)
Definition queued_keys_exist (s : db) : Prop :=
  dom (lock_queues s) ⊆@{gset string} dom (records s).

(** No caller is queued twice for the same key. *)
Definition queues_nodup (s : db) : Prop :=
  map_Forall (λ _ q, NoDup q) (lock_queues s).

(** The holder of a lock is not waiting for it. *)
Definition owner_not_queued (s : db) : Prop :=
  map_Forall (λ k owner, owner ∉ default [] (lock_queues s !! k)) (locks s).

(** Callers wait only for keys that are locked. *)
Definition waiters_have_owner (s : db) : Prop :=
  map_Forall (λ k q, q ≠ [] → is_Some (locks s !! k)) (lock_queues s).

Record store_inv (s : db) : Prop := StoreInv {
  inv_counts : counts_mirror_records s;
  inv_fields : records_nonempty s;
  inv_locks : locked_keys_exist s;
  inv_queues : queued_keys_exist s;
  inv_nodup : queues_nodup s;
  inv_owner : owner_not_queued s;
  inv_waiters : waiters_have_owner s
}.

(** Every queue entry of the store holds at least one waiter. *)
Definition no_empty_queue (s : db) : Prop :=
  map_Forall (λ _ q, q ≠ []) (lock_queues s).

(** The store a call leaves, and whether an outcome is a normal return. *)
Definition after (c : call) (s : db) : db := (perform c s).2.

Definition returns {A} (o : outcome A) : Prop :=
  match o with Return _ => True | Raise _ => False end.

(** ** Further notions used to describe the methods *)

(** Record [k1] with field [f = 5], written once, not locked. *)
Definition k1_unlocked : db :=
  Db {["k1" := {["f" := 5]}]} {["k1" := 1]} ∅ ∅.

(** [A] holds the lock of record [k1], whose modification count has been
    removed from [self.modification_count]. *)
Definition k1_without_count : db :=
  Db {["k1" := {["f" := 5]}]} ∅ {["k1" := "A"]} ∅.

(** [A] holds [k1]; [B], [C] and [D] wait in this order. *)
Definition three_waiting : db :=
  Db {["k1" := {["f" := 5]}]} {["k1" := 1]} {["k1" := "A"]}
     {["k1" := ["B"; "C"; "D"]]}.

(** The [key] argument of a call, if it has one. *)
Definition call_key (c : call) : option string :=
  match c with
  | Inc key _ _ | Delete key _ | Get key _
  | SetOrIncByCaller key _ _ _ | DeleteByCaller key _ _
  | Lock key _ | Unlock key => Some key
  | TopNKeys _ => None
  end.

(** The calls of the two methods that write records. *)
Definition is_mutation (c : call) : bool :=
  match c with
  | SetOrIncByCaller _ _ _ _ | DeleteByCaller _ _ _ => true
  | _ => false
  end.

(** The value [get] reads: [self.records[key][field]] when both exist. *)
Definition field_value (s : db) (key field : string) : option Z :=
  r ← records s !! key; r !! field.

(** The waiters of a key, none when the key has no queue entry. *)
Definition queue_of (s : db) (key : string) : list string :=
  default [] (lock_queues s !! key).

(** Every stored modification count is at least 1. *)
Definition counts_positive (s : db) : Prop :=
  map_Forall (λ _ count, 1 ≤ count) (modification_count s).

(** [f"{key}({count})"] *)
Definition format_entry (kc : string * Z) : string :=
  kc.1 +:+ "(" +:+ pretty kc.2 +:+ ")".

(** ** The methods, case by case

    Each lemma runs a method body on an arbitrary store and lists, by the
    lookups the body performs, the outcome and the store left behind. *)

Ltac run_body :=
  cbv beta iota zeta delta
    [item del_item subscript bind gets modify ret raise
     not_holder has_field has_waiter contains negb
     records modification_count locks lock_queues
     with_records with_modification_count with_locks with_lock_queues].

Ltac reduce :=
  cbv beta iota zeta delta [records modification_count locks lock_queues].

Ltac lookups :=
  repeat (reduce;
          first [ rewrite lookup_insert_eq
                | rewrite lookup_empty
                | match goal with H : _ !! _ = _ |- _ => rewrite H end ]);
  reduce.

Lemma get_cases key field s :
  get key field s =
  (Return (r ← records s !! key; r !! field), s).
Proof.
  destruct s as [rs mc ls qs]. unfold get. run_body.
  destruct (rs !! key) as [r|] eqn:Hr; lookups; [|done].
  destruct (r !! field) as [v|] eqn:Hv; lookups; simpl; by rewrite Hv.
Qed.

Lemma lock_cases key caller_id s :
  lock key caller_id s =
  match records s !! key with
  | None => (Return (Some "invalid_request"), s)
  | Some _ =>
    match locks s !! key with
    | None => (Return (Some "acquired"), with_locks <[key := caller_id]> s)
    | Some owner =>
      if decide (owner = caller_id) then (Return None, s)
      else match lock_queues s !! key with
           | None => (Return (Some "wait"), with_lock_queues <[key := [caller_id]]> s)
           | Some q =>
             if decide (caller_id ∈ q) then (Return (Some "wait"), s)
             else (Return (Some "wait"),
                   with_lock_queues <[key := (q ++ [caller_id])%list]> s)
           end
    end
  end.
Proof.
  destruct s as [rs mc ls qs]. unfold lock. run_body.
  destruct (rs !! key) as [r|] eqn:Hr; lookups; [|done].
  destruct (ls !! key) as [owner|] eqn:Hl; lookups; [|done].
  case_bool_decide; case_decide; try done. reduce.
  destruct (qs !! key) as [q|] eqn:Hq; lookups.
  - case_bool_decide; case_decide; done.
  - rewrite bool_decide_eq_false_2 by apply not_elem_of_nil.
    by rewrite insert_insert_eq.
Qed.

Lemma unlock_cases key s :
  unlock key s =
  match locks s !! key with
  | None => (Return None, s)
  | Some _ =>
    match lock_queues s !! key with
    | Some (next_caller :: rest) =>
        (Return (Some "released"),
         with_locks <[key := next_caller]> (with_lock_queues <[key := rest]> s))
    | _ => (Return (Some "released"), with_locks (delete key) s)
    end
  end.
Proof.
  destruct s as [rs mc ls qs]. unfold unlock. run_body.
  destruct (ls !! key) as [owner|] eqn:Hl; lookups; [|done].
  destruct (qs !! key) as [[|c q]|] eqn:Hq; lookups; try done.
  by rewrite insert_delete_eq.
Qed.

Lemma set_or_inc_by_caller_cases key field value caller_id s :
  set_or_inc_by_caller key field value caller_id s =
  match locks s !! key with
  | None => (Return None, s)
  | Some owner =>
    if decide (owner = caller_id) then
      match records s !! key with
      | None =>
          (Return (Some value),
           with_modification_count <[key := 1]>
             (with_records <[key := {[field := value]}]> s))
      | Some r =>
          let v := match r !! field with
                   | Some old => old + value
                   | None => value
                   end in
          match modification_count s !! key with
          | Some count =>
              (Return (Some v),
               with_modification_count <[key := count + 1]>
                 (with_records <[key := <[field := v]> r]> s))
          | None => (Raise KeyError, with_records <[key := <[field := v]> r]> s)
          end
      end
    else (Return None, s)
  end.
Proof.
  destruct s as [rs mc ls qs]. unfold set_or_inc_by_caller. run_body.
  destruct (ls !! key) as [owner|] eqn:Hl; lookups; [|done].
  case_bool_decide; case_decide; try done. reduce.
  destruct (rs !! key) as [r|] eqn:Hr; lookups.
  - destruct (r !! field) as [old|] eqn:Hf; lookups;
      (destruct (mc !! key) as [count|] eqn:Hc; lookups; [|done]);
      by rewrite ?insert_insert_eq.
  - by rewrite !insert_insert_eq, insert_empty.
Qed.

Lemma delete_by_caller_cases key field caller_id s :
  delete_by_caller key field caller_id s =
  match locks s !! key with
  | None => (Return false, s)
  | Some owner =>
    if decide (owner = caller_id) then
      match records s !! key with
      | None => (Return false, s)
      | Some r =>
        match r !! field with
        | None => (Return false, s)
        | Some _ =>
          match modification_count s !! key with
          | None => (Raise KeyError, with_records <[key := delete field r]> s)
          | Some count =>
            if decide (delete field r = ∅) then
              (Return true,
               Db (delete key (records s)) (delete key (modification_count s))
                  (delete key (locks s)) (delete key (lock_queues s)))
            else
              (Return true,
               with_modification_count <[key := count + 1]>
                 (with_records <[key := delete field r]> s))
          end
        end
      end
    else (Return false, s)
  end.
Proof.
  destruct s as [rs mc ls qs]. unfold delete_by_caller. run_body.
  destruct (ls !! key) as [owner|] eqn:Hl; lookups; [|done].
  case_bool_decide; case_decide; try done. reduce.
  destruct (rs !! key) as [r|] eqn:Hr; lookups; [|done].
  destruct (r !! field) as [old|] eqn:Hf; lookups; [|done].
  destruct (mc !! key) as [count|] eqn:Hc; lookups; [|done].
  case_bool_decide; case_decide; try done; lookups; try done.
  by rewrite !delete_insert_eq.
Qed.

(** ** Calls and sequences of calls *)

Lemma bind_ret_state {A B} (m : M A) (f : A → B) s :
  ((r <- m ;; ret (f r)) s).2 = (m s).2.
Proof. unfold bind, ret. by destruct (m s) as [[a|e] s']. Qed.

Lemma bind_ret_returns {A B} (m : M A) (f : A → B) s :
  returns ((r <- m ;; ret (f r)) s).1 ↔ returns (m s).1.
Proof. unfold bind, ret. by destruct (m s) as [[a|e] s']. Qed.

Lemma after_cases c s :
  after c s =
  match c with
  | Inc _ _ _ | Delete _ _ | Get _ _ | TopNKeys _ => s
  | SetOrIncByCaller key field v caller_id =>
      (set_or_inc_by_caller key field v caller_id s).2
  | DeleteByCaller key field caller_id => (delete_by_caller key field caller_id s).2
  | Lock key caller_id => (lock key caller_id s).2
  | Unlock key => (unlock key s).2
  end.
Proof.
  unfold after. destruct c; unfold perform; rewrite ?bind_ret_state; try done.
  by rewrite get_cases.
Qed.

Lemma run_app cs1 cs2 s :
  (run (cs1 ++ cs2) s).2 = (run cs2 (run cs1 s).2).2.
Proof.
  revert s. induction cs1 as [|c cs1 IH]; intros s; [done|].
  simpl. destruct (perform c s) as [o s'].
  specialize (IH s'). destruct (run (cs1 ++ cs2) s') as [os s''].
  destruct (run cs1 s') as [os1 s1]. done.
Qed.

Lemma run_cons_state c cs s : (run (c :: cs) s).2 = (run cs (after c s)).2.
Proof.
  unfold after. simpl. destruct (perform c s) as [o s']. simpl.
  by destruct (run cs s') as [os s''].
Qed.

(** A property kept by every call is kept by every sequence of calls. *)
Lemma run_invariant (P : db → Prop) :
  (∀ c s, P s → P (after c s)) →
  ∀ cs s, P s → P (run cs s).2.
Proof.
  intros Hstep cs. induction cs as [|c cs IH]; intros s Hs; [done|].
  rewrite run_cons_state. apply IH, Hstep, Hs.
Qed.

(** ** The lock guard of the mutations *)

(** C3. A caller that does not hold the lock of [key] (the key is unlocked,
    or locked by somebody else) gets [None] from [set_or_inc_by_caller] and
    [False] from [delete_by_caller], and the store is left exactly as it
    was. *)
Theorem mutation_without_lock s key field delta caller_id :
  locks s !! key ≠ Some caller_id →
  set_or_inc_by_caller key field delta caller_id s = (Return None, s) ∧
  delete_by_caller key field caller_id s = (Return false, s).
Proof.
  intros Hlock.
  rewrite set_or_inc_by_caller_cases, delete_by_caller_cases.
  destruct (locks s !! key) as [owner|]; [|done].
  case_decide; [congruence|done].
Qed.

Lemma mutation_without_lock_witness :
  set_or_inc_by_caller "k1" "f" 1 "B" B_waiting = (Return None, B_waiting) ∧
  delete_by_caller "k1" "f" "B" B_waiting = (Return false, B_waiting).
Proof.
  apply (mutation_without_lock B_waiting "k1" "f" 1 "B").
  vm_compute. discriminate.
Defined.

(** ** Deleting a field *)

(** C4. When the caller holds the lock of [key] (in a store where records
    and modification counts go together): a field that exists is removed,
    the count of [key] grows by one and the result is [True]; if the
    record is left without fields, then the record, its count, its lock
    and its queue entry are all removed, whatever the queue holds; a field
    (or record) that does not exist gives [False] and the store is left as
    it was. *)
Theorem delete_by_caller_spec s key field caller_id :
  locks s !! key = Some caller_id →
  counts_mirror_records s →
  match records s !! key with
  | Some r =>
    match r !! field with
    | Some _ =>
        ∃ count, modification_count s !! key = Some count ∧
        delete_by_caller key field caller_id s =
        (Return true,
         if decide (delete field r = ∅) then
           Db (delete key (records s)) (delete key (modification_count s))
              (delete key (locks s)) (delete key (lock_queues s))
         else
           Db (<[key := delete field r]> (records s))
              (<[key := count + 1]> (modification_count s))
              (locks s) (lock_queues s))
    | None => delete_by_caller key field caller_id s = (Return false, s)
    end
  | None => delete_by_caller key field caller_id s = (Return false, s)
  end.
Proof.
  intros Hlock Hcounts. rewrite delete_by_caller_cases, Hlock.
  rewrite decide_True by done.
  destruct (records s !! key) as [r|] eqn:Hr; [|done].
  destruct (r !! field) as [old|] eqn:Hf; [|done].
  assert (is_Some (modification_count s !! key)) as [count Hc].
  { apply elem_of_dom. rewrite Hcounts. apply elem_of_dom. eauto. }
  exists count. split; [done|]. rewrite Hc. by case_decide.
Qed.

Lemma delete_by_caller_spec_witness :
  ∃ count, modification_count B_waiting !! "k1" = Some count ∧
  delete_by_caller "k1" "f" "A" B_waiting = (Return true, init).
Proof.
  refine (delete_by_caller_spec B_waiting "k1" "f" "A" _ _);
    vm_compute; reflexivity.
Defined.

(** ** Unlocking *)

(** C5. [unlock] of a key that has no owner returns [None] and changes
    nothing, whether or not the key has a record.  [unlock] of a locked
    key returns ["released"]: if the queue of the key starts with a waiter,
    that waiter is removed from the queue and becomes the owner, the other
    waiters keeping their order; if the key has no queue entry or an empty
    one, the key is left without owner. *)
Theorem unlock_spec s key :
  (locks s !! key = None → unlock key s = (Return None, s)) ∧
  (∀ next_caller rest,
     is_Some (locks s !! key) →
     lock_queues s !! key = Some (next_caller :: rest) →
     unlock key s =
     (Return (Some "released"),
      Db (records s) (modification_count s)
         (<[key := next_caller]> (locks s)) (<[key := rest]> (lock_queues s)))) ∧
  (is_Some (locks s !! key) →
   lock_queues s !! key = None ∨ lock_queues s !! key = Some [] →
   unlock key s =
   (Return (Some "released"),
    Db (records s) (modification_count s) (delete key (locks s)) (lock_queues s))).
Proof.
  rewrite unlock_cases. split_and!.
  - by intros ->.
  - intros c q [owner ->] ->. done.
  - intros [owner ->] [-> | ->]; done.
Qed.

Lemma unlock_spec_witness :
  unlock "k1" init = (Return None, init) ∧
  unlock "k1" B_waiting =
    (Return (Some "released"),
     Db {["k1" := {["f" := 5]}]} {["k1" := 1]} {["k1" := "B"]} {["k1" := []]}) ∧
  unlock "k1" held_by_A =
    (Return (Some "released"), Db {["k1" := {["f" := 5]}]} {["k1" := 1]} ∅ ∅).
Proof.
  split_and!.
  - apply (unlock_spec init "k1"). vm_compute; reflexivity.
  - refine (proj1 (proj2 (unlock_spec B_waiting "k1")) "B" [] _ _);
      vm_compute; eauto.
  - refine (proj2 (proj2 (unlock_spec held_by_A "k1")) _ _);
      vm_compute; eauto.
Defined.

(** ** Writing a field *)

(** C6. When the caller holds the lock of [key] (in a store where records
    and modification counts go together): a missing record is created with
    count 0; the field is increased by [delta] if it exists and set to
    [delta] otherwise; the count of [key] grows by one; the result is the
    new value of the field. *)
Theorem set_or_inc_by_caller_spec s key field delta caller_id :
  locks s !! key = Some caller_id →
  counts_mirror_records s →
  match records s !! key with
  | None =>
      set_or_inc_by_caller key field delta caller_id s =
      (Return (Some delta),
       Db (<[key := {[field := delta]}]> (records s))
          (<[key := 0 + 1]> (modification_count s))
          (locks s) (lock_queues s))
  | Some r =>
      let new_value := match r !! field with
                       | Some old => old + delta
                       | None => delta
                       end in
      ∃ count, modification_count s !! key = Some count ∧
      set_or_inc_by_caller key field delta caller_id s =
      (Return (Some new_value),
       Db (<[key := <[field := new_value]> r]> (records s))
          (<[key := count + 1]> (modification_count s))
          (locks s) (lock_queues s))
  end.
Proof.
  intros Hlock Hcounts. rewrite set_or_inc_by_caller_cases, Hlock.
  rewrite decide_True by done.
  destruct (records s !! key) as [r|] eqn:Hr; [|done].
  assert (is_Some (modification_count s !! key)) as [count Hc].
  { apply elem_of_dom. rewrite Hcounts. apply elem_of_dom. eauto. }
  simpl. exists count. split; [done|]. by rewrite Hc.
Qed.

Lemma set_or_inc_by_caller_spec_witness :
  (∃ count, modification_count held_by_A !! "k1" = Some count ∧
   set_or_inc_by_caller "k1" "f" 1 "A" held_by_A =
   (Return (Some 6),
    Db {["k1" := {["f" := 6]}]} (<["k1" := count + 1]> {["k1" := 1]})
       {["k1" := "A"]} ∅)) ∧
  set_or_inc_by_caller "k1" "f" 5 "A" lock_without_record =
  (Return (Some 5), Db {["k1" := {["f" := 5]}]} {["k1" := 1]} {["k1" := "A"]} ∅).
Proof.
  split.
  - refine (set_or_inc_by_caller_spec held_by_A "k1" "f" 1 "A" _ _);
      vm_compute; reflexivity.
  - refine (set_or_inc_by_caller_spec lock_without_record "k1" "f" 5 "A" _ _);
      vm_compute; reflexivity.
Defined.

(** ** Locking *)

(** Under [locked_keys_exist] a locked key has a record. *)
Lemma locked_record s key owner :
  locked_keys_exist s → locks s !! key = Some owner →
  is_Some (records s !! key).
Proof.
  intros Hinv Hl. apply elem_of_dom, Hinv, elem_of_dom. eauto.
Qed.

(** C7. [lock] of a key that has no record returns ["invalid_request"] and
    leaves the store as it was: no record, owner or queue entry appears. *)
Theorem lock_missing_record s key caller_id :
  records s !! key = None →
  lock key caller_id s = (Return (Some "invalid_request"), s).
Proof. intros Hr. by rewrite lock_cases, Hr. Qed.

Lemma lock_missing_record_witness :
  lock "k1" "A" init = (Return (Some "invalid_request"), init).
Proof. apply (lock_missing_record init "k1" "A"). vm_compute; reflexivity. Defined.

(** C9. In a store where only existing records are locked, [lock] of a
    key by the caller that already holds its lock returns [None], which is
    not the ["acquired"] result, and leaves the whole store, owner and
    queue included, as it was. *)
Theorem lock_again_by_holder s key caller_id :
  locked_keys_exist s →
  locks s !! key = Some caller_id →
  lock key caller_id s = (Return None, s) ∧
  (lock key caller_id s).1 ≠ Return (Some "acquired").
Proof.
  intros Hinv Hl.
  destruct (locked_record s key caller_id Hinv Hl) as [r Hr].
  rewrite lock_cases, Hr, Hl. by rewrite decide_True.
Qed.

Lemma lock_again_by_holder_witness :
  lock "k1" "A" B_waiting = (Return None, B_waiting) ∧
  (lock "k1" "A" B_waiting).1 ≠ Return (Some "acquired").
Proof.
  apply (lock_again_by_holder B_waiting "k1" "A"); by vm_compute.
Defined.

(** ** Queues without duplicates *)

Ltac method_cases :=
  rewrite ?set_or_inc_by_caller_cases, ?delete_by_caller_cases,
    ?lock_cases, ?unlock_cases;
  repeat first [case_match | case_decide]; simplify_eq/=.

Lemma after_queues_nodup c s : queues_nodup s → queues_nodup (after c s).
Proof.
  unfold queues_nodup. intros Hq. rewrite after_cases.
  destruct c; try done; method_cases; try done.
  - by apply map_Forall_delete.
  - apply map_Forall_insert_2; [|done].
    apply NoDup_app. split_and!; [by eapply Hq| |apply NoDup_singleton].
    intros x Hx ->%list_elem_of_singleton. done.
  - apply map_Forall_insert_2; [apply NoDup_singleton|done].
  - apply map_Forall_insert_2; [|done].
    eapply NoDup_cons_1_2, Hq. done.
Qed.

Lemma init_queues_nodup : queues_nodup init.
Proof. apply map_Forall_empty. Qed.

(** The queue of [key] after a caller other than the owner asked for the
    lock. *)
Lemma lock_wait_queue s key caller_id owner :
  is_Some (records s !! key) →
  locks s !! key = Some owner →
  owner ≠ caller_id →
  let q := default [] (lock_queues s !! key) in
  lock key caller_id s =
  (Return (Some "wait"),
   if decide (caller_id ∈ q) then s
   else with_lock_queues <[key := q ++ [caller_id]]> s).
Proof.
  intros [r Hr] Hl Hne. cbv zeta. rewrite lock_cases, Hr, Hl.
  rewrite decide_False by done.
  destruct (lock_queues s !! key) as [q|]; simpl; [by case_decide|done].
Qed.

(** ** The fresh store *)

Lemma after_init c : after c init = init.
Proof. rewrite after_cases. destruct c; try done; by method_cases. Qed.

Lemma run_init cs : (run cs init).2 = init.
Proof. by apply (run_invariant (λ s, s = init)); [intros c s ->; apply after_init|]. Qed.

Lemma reachable_init s : reachable s ↔ s = init.
Proof.
  split.
  - intros [cs <-]. apply run_init.
  - intros ->. by exists [].
Qed.

Lemma reachable_from_invariant (P : db → Prop) s0 :
  (∀ c s, P s → P (after c s)) → P s0 → ∀ s, reachable_from s0 s → P s.
Proof. intros Hstep H0 s [cs <-]. by apply run_invariant. Qed.

(** C2. Whatever calls are made on a fresh store, the store stays as
    [__init__] built it: the four dictionaries are empty.  No record is
    ever created and no lock acquired: on every store reached [lock]
    answers ["invalid_request"], and [set_or_inc_by_caller] leaves at its
    lock guard with [None], so its record-creating branch is never run. *)
Theorem fresh_store_stays_empty (cs : list call) :
  let s := (run cs init).2 in
  (records s = ∅ ∧ modification_count s = ∅ ∧ locks s = ∅ ∧ lock_queues s = ∅) ∧
  (∀ key caller_id,
     lock key caller_id s = (Return (Some "invalid_request"), s)) ∧
  (∀ key field value caller_id,
     not_holder s key caller_id = true ∧
     set_or_inc_by_caller key field value caller_id s = (Return None, s)) ∧
  (∀ key field caller_id,
     delete_by_caller key field caller_id s = (Return false, s)).
Proof.
  cbv zeta. rewrite run_init. split_and!; try done.
Qed.

(** C1, as the code has it. On a fresh store the three calls of the
    scenario answer ["invalid_request"], [None] and [None], and the store
    is still empty.  The write does create the record, answering 5, and
    [get] then answers 5, when it is run on a store in which [A] already
    holds the lock of the key without record; no sequence of calls leads
    from the fresh store to such a store. *)
Theorem scenario_first_step :
  run [Lock "k1" "A"; SetOrIncByCaller "k1" "f" 5 "A"; Get "k1" "f"] init =
    ([Return (VStr "invalid_request"); Return VNone; Return VNone], init) ∧
  run [SetOrIncByCaller "k1" "f" 5 "A"; Get "k1" "f"] lock_without_record =
    ([Return (VInt 5); Return (VInt 5)], held_by_A) ∧
  ¬ reachable lock_without_record.
Proof.
  split_and!; [by vm_compute..|].
  intros Hreach%reachable_init.
  apply (f_equal (λ s, locks s !! "k1")) in Hreach.
  vm_compute in Hreach. discriminate.
Qed.

(** The scenario as the specification words it does not hold: the first
    call is not answered ["acquired"]. *)
Lemma scenario_first_step_not_acquired :
  (run [Lock "k1" "A"; SetOrIncByCaller "k1" "f" 5 "A"; Get "k1" "f"] init).1
  ≠ [Return (VStr "acquired"); Return (VInt 5); Return (VInt 5)].
Proof. vm_compute. discriminate. Qed.

(** ** Waiting for a lock *)

(** C8. In a store where only existing records are locked, [lock] of a
    key held by another caller returns ["wait"] and appends the caller to
    the queue of the key unless the caller is already in it.  Hence a queue without duplicates stays
    without duplicates under every sequence of calls, in particular in
    every store reachable from the fresh one; and two distinct callers
    asking one after the other for a key held by a third are queued in
    the order of their calls. *)
Theorem lock_by_other_caller s key caller_id owner :
  locked_keys_exist s →
  locks s !! key = Some owner →
  owner ≠ caller_id →
  let q := default [] (lock_queues s !! key) in
  lock key caller_id s =
    (Return (Some "wait"),
     if decide (caller_id ∈ q) then s
     else Db (records s) (modification_count s) (locks s)
             (<[key := q ++ [caller_id]]> (lock_queues s))) ∧
  (queues_nodup s → ∀ s', reachable_from s s' → queues_nodup s') ∧
  (∀ s', reachable s' → queues_nodup s') ∧
  (∀ second,
     second ≠ owner → second ≠ caller_id → caller_id ∉ q → second ∉ q →
     (run [Lock key caller_id; Lock key second] s).1 =
       [Return (VStr "wait"); Return (VStr "wait")] ∧
     lock_queues (run [Lock key caller_id; Lock key second] s).2 !! key =
       Some (q ++ [caller_id; second])).
Proof.
  intros Hinv Hl Hne q.
  pose proof (locked_record s key owner Hinv Hl) as Hr. split_and!.
  - by rewrite (lock_wait_queue s key caller_id owner).
  - intros Hq s'. by apply reachable_from_invariant; [apply after_queues_nodup|].
  - apply reachable_from_invariant; [apply after_queues_nodup|apply init_queues_nodup].
  - intros second Hso Hsc Hcq Hsq. simpl. unfold perform, bind, ret.
    rewrite (lock_wait_queue s key caller_id owner) by done.
    fold q. rewrite decide_False by done. simpl.
    rewrite (lock_wait_queue _ key second owner); simpl; [|done..].
    rewrite lookup_insert_eq. simpl.
    rewrite decide_False.
    + simpl. split; [done|]. rewrite lookup_insert_eq.
      by rewrite <- (assoc_L (++)).
    + rewrite elem_of_app, list_elem_of_singleton. by intros [?|?].
Qed.

Lemma lock_by_other_caller_witness :
  lock "k1" "C" B_waiting =
  (Return (Some "wait"),
   Db {["k1" := {["f" := 5]}]} {["k1" := 1]} {["k1" := "A"]} {["k1" := ["B"; "C"]]}).
Proof.
  refine (proj1 (lock_by_other_caller B_waiting "k1" "C" "A" _ _ _));
    by vm_compute.
Defined.

(** ** The invariant of the store *)

Lemma init_store_inv : store_inv init.
Proof.
  split; red; simpl; first [done | apply map_Forall_empty].
Qed.

Ltac in_dom :=
  repeat match goal with
         | H : _ !! _ = Some _ |- _ => apply elem_of_dom_2 in H
         | H : _ !! _ = None |- _ => apply not_elem_of_dom in H
         end.

Lemma after_counts_mirror_records c s :
  counts_mirror_records s → counts_mirror_records (after c s).
Proof.
  unfold counts_mirror_records. intros Hc. rewrite after_cases.
  destruct c; try done; method_cases; try done;
    rewrite ?dom_insert_L, ?dom_delete_L; in_dom; set_solver.
Qed.

Lemma after_locked_keys_exist c s :
  locked_keys_exist s → locked_keys_exist (after c s).
Proof.
  unfold locked_keys_exist. intros Hc. rewrite after_cases.
  destruct c; try done; method_cases; try done;
    rewrite ?dom_insert_L, ?dom_delete_L; in_dom; set_solver.
Qed.

Lemma after_queued_keys_exist c s :
  queued_keys_exist s → queued_keys_exist (after c s).
Proof.
  unfold queued_keys_exist. intros Hc. rewrite after_cases.
  destruct c; try done; method_cases; try done;
    rewrite ?dom_insert_L, ?dom_delete_L; in_dom; set_solver.
Qed.

Lemma after_waiters_have_owner c s :
  waiters_have_owner s → waiters_have_owner (after c s).
Proof.
  unfold waiters_have_owner. intros Hw. rewrite after_cases.
  destruct c; try done; method_cases; try done;
    intros k q Hk Hq; destruct (decide (k = key)) as [->|Hkey];
    simplify_map_eq; eauto.
Qed.

Lemma after_records_nonempty c s :
  counts_mirror_records s → records_nonempty s → records_nonempty (after c s).
Proof.
  unfold counts_mirror_records, records_nonempty. intros Hc Hr. rewrite after_cases.
  destruct c; try done; method_cases; try done.
  all: try (apply map_Forall_insert_2; [|done]).
  all: try apply insert_non_empty.
  all: try by apply map_Forall_delete.
  all: try done.
  all: in_dom; set_solver.
Qed.

Lemma after_owner_not_queued c s :
  queues_nodup s → waiters_have_owner s → owner_not_queued s →
  owner_not_queued (after c s).
Proof.
  unfold queues_nodup, waiters_have_owner, owner_not_queued.
  intros Hn Hw Ho. rewrite after_cases.
  destruct c; try done; method_cases; try done;
    intros k o Hk; destruct (decide (k = key)) as [->|Hkey];
    simplify_map_eq; eauto.
  - match goal with
    | Hl : locks s !! key = Some _, Hq : lock_queues s !! key = Some _ |- _ =>
        pose proof (Ho _ _ Hl) as Hnot; simpl in Hnot;
        rewrite Hq in Hnot; simpl in Hnot
    end.
    rewrite elem_of_app, list_elem_of_singleton. by intros [?|?].
  - rewrite list_elem_of_singleton. congruence.
  - destruct (lock_queues s !! key) as [[|c q]|] eqn:Hq; simpl;
      try apply not_elem_of_nil.
    destruct (Hw _ _ Hq) as [owner Howner]; [done|congruence].
  - eapply NoDup_cons_1_1, Hn. done.
Qed.

(** Every call keeps the invariant of the store. *)
Lemma after_store_inv c s : store_inv s → store_inv (after c s).
Proof.
  intros [Hc Hf Hl Hq Hn Ho Hw]. split.
  - by apply after_counts_mirror_records.
  - by apply after_records_nonempty.
  - by apply after_locked_keys_exist.
  - by apply after_queued_keys_exist.
  - by apply after_queues_nodup.
  - by apply after_owner_not_queued.
  - by apply after_waiters_have_owner.
Qed.

(** No call raises on a store where records and counts go together. *)
Lemma perform_returns c s : counts_mirror_records s → returns (perform c s).1.
Proof.
  unfold counts_mirror_records. intros Hc.
  destruct c; unfold perform; rewrite ?bind_ret_returns; try done.
  - by rewrite get_cases.
  - method_cases; try done; in_dom; set_solver.
  - method_cases; try done; in_dom; set_solver.
  - by method_cases.
  - by method_cases.
Qed.

Lemma run_store_inv cs s : store_inv s → store_inv (run cs s).2.
Proof. apply run_invariant. intros c s'. apply after_store_inv. Qed.

Lemma run_returns cs s :
  counts_mirror_records s → Forall returns (run cs s).1.
Proof.
  revert s. induction cs as [|c cs IH]; intros s Hc; [by constructor|].
  simpl. pose proof (perform_returns c s Hc) as Hret.
  pose proof (after_counts_mirror_records c s Hc) as Hc'. unfold after in Hc'.
  destruct (perform c s) as [o s']. specialize (IH s' Hc').
  destruct (run cs s') as [os s'']. by constructor.
Qed.

(** The stores used in the examples satisfy the invariant. *)
Lemma held_by_A_store_inv : store_inv held_by_A.
Proof.
  split; red; simpl.
  - by rewrite !dom_singleton_L.
  - by apply map_Forall_singleton, insert_non_empty.
  - by rewrite !dom_singleton_L.
  - by rewrite dom_empty_L.
  - apply map_Forall_empty.
  - by apply map_Forall_singleton, not_elem_of_nil.
  - apply map_Forall_empty.
Qed.

Lemma B_waiting_after_lock : after (Lock "k1" "B") held_by_A = B_waiting.
Proof. by vm_compute. Qed.

Lemma B_waiting_store_inv : store_inv B_waiting.
Proof. rewrite <- B_waiting_after_lock. apply after_store_inv, held_by_A_store_inv. Qed.

(** ** Queue entries without waiters *)

Lemma after_no_empty_queue c s :
  (∀ key, c ≠ Unlock key) → no_empty_queue s → no_empty_queue (after c s).
Proof.
  unfold no_empty_queue. intros Hc Hq. rewrite after_cases.
  destruct c; try done; [| | |by destruct (Hc key)]; method_cases; try done.
  - by apply map_Forall_delete.
  - apply map_Forall_insert_2; [|done]. by intros []%app_eq_nil.
  - by apply map_Forall_insert_2.
Qed.

Lemma unlock_queue_entry s key k :
  lock_queues (after (Unlock key) s) !! k =
  match locks s !! key, lock_queues s !! key with
  | Some _, Some (_ :: rest) => <[key := rest]> (lock_queues s) !! k
  | _, _ => lock_queues s !! k
  end.
Proof. rewrite after_cases. by method_cases. Qed.



(** X21. In a store without empty queue entries, no call other than
    [unlock] produces one: [lock] creates an entry only together with its
    first waiter.  [unlock] of a locked key keeps the entry of the key
    with the waiters that remain, so an entry is empty after [unlock] only
    for the key unlocked, and only when that key was locked and the waiter
    handed the lock was the only one queued.  In the stores reachable from
    the fresh store there is no queue entry at all. *)
Theorem queue_entries_after_calls s :
  no_empty_queue s →
  (∀ c, (∀ key, c ≠ Unlock key) → no_empty_queue (after c s)) ∧
  (∀ key next_caller rest,
     is_Some (locks s !! key) →
     lock_queues s !! key = Some (next_caller :: rest) →
     lock_queues (after (Unlock key) s) !! key = Some rest) ∧
  (∀ key k,
     lock_queues (after (Unlock key) s) !! k = Some [] →
     k = key ∧ is_Some (locks s !! key) ∧
     ∃ last, lock_queues s !! key = Some [last]) ∧
  (∀ s', reachable s' → lock_queues s' = ∅).
Proof.
  intros Hq. split_and!.
  - intros c Hc. by apply after_no_empty_queue.
  - intros key c q [owner Ho] Hk. rewrite unlock_queue_entry, Ho, Hk.
    apply lookup_insert_eq.
  - intros key k. rewrite unlock_queue_entry.
    destruct (locks s !! key) as [owner|] eqn:Ho;
      [destruct (lock_queues s !! key) as [[|c q]|] eqn:Hk|];
      try (intros Hempty; by destruct (Hq _ _ Hempty)).
    destruct (decide (k = key)) as [->|Hne].
    + rewrite lookup_insert_eq. intros [= ->]. eauto.
    + rewrite lookup_insert_ne by done. intros Hempty. by destruct (Hq _ _ Hempty).
  - by intros s' ->%reachable_init.
Qed.

Lemma queue_entries_after_calls_witness :
  lock_queues (after (Unlock "k1") B_waiting) !! "k1" = Some [].
Proof.
  refine (proj1 (proj2 (queue_entries_after_calls B_waiting _)) "k1" "B" [] _ _).
  - apply map_Forall_singleton. discriminate.
  - vm_compute. eauto.
  - vm_compute. reflexivity.
Defined.

(** On the store where [B] waits for [k1], which satisfies the invariant
    of the store but is not reachable from the fresh store: after
    [unlock] has handed the lock to the only waiter, [k1] still maps to a
    queue, and the queue is empty. *)
Lemma unlock_last_waiter_keeps_empty_queue :
  store_inv B_waiting ∧ no_empty_queue B_waiting ∧
  unlock "k1" B_waiting =
    (Return (Some "released"),
     Db {["k1" := {["f" := 5]}]} {["k1" := 1]} {["k1" := "B"]} {["k1" := []]}) ∧
  ¬ no_empty_queue (after (Unlock "k1") B_waiting).
Proof.
  split_and!.
  - apply B_waiting_store_inv.
  - apply map_Forall_singleton. discriminate.
  - by vm_compute.
  - intros Hq. by apply (Hq "k1" []); vm_compute.
Qed.

(** ** The rest of the scenario *)

(** From the store that the first step of the scenario is meant to leave
    (record [k1] with [f = 5], written once and locked by [A]), the later
    steps answer as the specification lists them, and the store ends
    empty. *)
Example scenario_later_steps :
  run [Lock "k1" "B"; SetOrIncByCaller "k1" "f" 1 "B"; Unlock "k1";
       SetOrIncByCaller "k1" "f" 1 "B"; DeleteByCaller "k1" "f" "B";
       Lock "k1" "C"] held_by_A =
  ([Return (VStr "wait"); Return VNone; Return (VStr "released");
    Return (VInt 6); Return (VBool true); Return (VStr "invalid_request")],
   init).
Proof. by vm_compute. Qed.

(** Ranking with counts [a:3], [b:3], [c:1]: the tie is broken by key. *)
Example top_n_keys_ranked :
  top_n_keys 2 ranked = (Return ["a(3)"; "b(3)"], ranked) ∧
  (top_n_keys 5 ranked).1 = Return ["a(3)"; "b(3)"; "c(1)"].
Proof. by vm_compute. Qed.

(** * Further properties of the methods *)

(** ** Reading *)

(** X1. [get] never raises and never changes the store.  It answers the
    value of the field when the record and the field exist and [None]
    otherwise, and the answer depends on [self.records] only: locks and
    queues are not consulted. *)
Theorem get_reads_records key field s :
  get key field s = (Return (field_value s key field), s) ∧
  (∀ v, field_value s key field = Some v ↔
        ∃ r, records s !! key = Some r ∧ r !! field = Some v) ∧
  (∀ mc ls qs, (get key field (Db (records s) mc ls qs)).1 = (get key field s).1).
Proof.
  split_and!.
  - apply get_cases.
  - intros v. unfold field_value.
    destruct (records s !! key) as [r|]; simpl.
    + split; [eauto|]. by intros (r' & [= <-] & Hv).
    + split; [done|]. by intros (r' & [=] & _).
  - intros mc ls qs. by rewrite !get_cases.
Qed.

(** ** Acquiring a lock *)

(** X2. [lock] of a key that has a record and no owner returns
    ["acquired"] and makes the caller the owner; records, counts, the
    owners of other keys and all queues are left as they were. *)
Theorem lock_acquires s key caller_id :
  is_Some (records s !! key) →
  locks s !! key = None →
  lock key caller_id s =
  (Return (Some "acquired"),
   Db (records s) (modification_count s)
      (<[key := caller_id]> (locks s)) (lock_queues s)).
Proof. intros [r Hr] Hl. by rewrite lock_cases, Hr, Hl. Qed.

Lemma lock_acquires_witness :
  lock "k1" "A" k1_unlocked = (Return (Some "acquired"), held_by_A).
Proof. apply (lock_acquires k1_unlocked "k1" "A"); vm_compute; eauto. Defined.

(** X3. [lock] never raises, and its four answers tell the four
    situations apart: ["invalid_request"] exactly when the key has no
    record, ["acquired"] exactly when it has a record and no owner, [None]
    exactly when the caller is the owner of an existing record, ["wait"]
    exactly when another caller is.  A key that has an owner keeps that
    owner, and after ["wait"] the caller is in the queue of the key. *)
Theorem lock_answers s key caller_id :
  ∃ answer,
    (lock key caller_id s).1 = Return answer ∧
    (answer = Some "invalid_request" ↔ records s !! key = None) ∧
    (answer = Some "acquired" ↔
       is_Some (records s !! key) ∧ locks s !! key = None) ∧
    (answer = None ↔
       is_Some (records s !! key) ∧ locks s !! key = Some caller_id) ∧
    (answer = Some "wait" ↔
       is_Some (records s !! key) ∧
       ∃ owner, locks s !! key = Some owner ∧ owner ≠ caller_id) ∧
    (∀ owner, locks s !! key = Some owner →
              locks (lock key caller_id s).2 !! key = Some owner) ∧
    (answer = Some "wait" → caller_id ∈ queue_of (lock key caller_id s).2 key).
Proof.
  rewrite lock_cases. unfold queue_of.
  destruct (records s !! key) as [r|] eqn:Hr.
  2: { eexists; split_and!; [done|..]; try naive_solver. }
  destruct (locks s !! key) as [owner|] eqn:Hl.
  2: { eexists; split_and!; [done|..]; try naive_solver. }
  destruct (decide (owner = caller_id)) as [->|Hne].
  { eexists; split_and!; [done|..]; try naive_solver. }
  destruct (lock_queues s !! key) as [q|] eqn:Hq;
    [destruct (decide (caller_id ∈ q))|];
    (eexists; split_and!; [done|..]; try naive_solver); intros _; simpl.
  - by rewrite Hq.
  - rewrite lookup_insert_eq. simpl. set_solver.
  - rewrite lookup_insert_eq. simpl. set_solver.
Qed.

(** X4. Asking twice is the same as asking once: a second [lock] of the
    same key by the same caller leaves the store as the first one left
    it, and is never answered ["acquired"]. *)
Theorem lock_twice s key caller_id :
  let s1 := (lock key caller_id s).2 in
  (lock key caller_id s1).2 = s1 ∧
  (lock key caller_id s1).1 ≠ Return (Some "acquired").
Proof.
  cbv zeta. rewrite (lock_cases key caller_id s).
  destruct (records s !! key) as [r|] eqn:Hr; simpl.
  2: { by rewrite lock_cases, Hr. }
  destruct (locks s !! key) as [owner|] eqn:Hl; simpl.
  2: { rewrite lock_cases; simpl. rewrite Hr, lookup_insert_eq.
       by rewrite decide_True. }
  destruct (decide (owner = caller_id)) as [->|Hne]; simpl.
  { rewrite lock_cases, Hr, Hl. by rewrite decide_True. }
  destruct (lock_queues s !! key) as [q|] eqn:Hq;
    [destruct (decide (caller_id ∈ q))|]; simpl;
    rewrite lock_cases; simpl; rewrite Hr, Hl, ?Hq, ?lookup_insert_eq;
    rewrite decide_False by done.
  - by rewrite decide_True.
  - by rewrite decide_True by set_solver.
  - by rewrite decide_True by set_solver.
Qed.

(** X5. On a key that has a record, no owner and no waiter, [lock]
    followed by [unlock] answers ["acquired"] and ["released"] and gives
    back the store exactly as it was. *)
Theorem lock_then_unlock s key caller_id :
  is_Some (records s !! key) →
  locks s !! key = None →
  queue_of s key = [] →
  run [Lock key caller_id; Unlock key] s =
  ([Return (VStr "acquired"); Return (VStr "released")], s).
Proof.
  unfold queue_of. intros [r Hr] Hl Hq. simpl. unfold perform, bind, ret.
  rewrite lock_cases, Hr, Hl. rewrite unlock_cases. simpl.
  rewrite lookup_insert_eq.
  destruct (lock_queues s !! key) as [q|]; simpl in *; subst;
    unfold with_locks; simpl; rewrite delete_insert_id by done;
    by destruct s.
Qed.

Lemma lock_then_unlock_witness :
  run [Lock "k1" "A"; Unlock "k1"] k1_unlocked =
  ([Return (VStr "acquired"); Return (VStr "released")], k1_unlocked).
Proof. apply (lock_then_unlock k1_unlocked "k1" "A"); vm_compute; eauto. Defined.

(** ** Handing the lock over *)

Lemma unlock_hand_over s key owner next_caller rest :
  locks s !! key = Some owner →
  lock_queues s !! key = Some (next_caller :: rest) →
  locks (after (Unlock key) s) !! key = Some next_caller ∧
  lock_queues (after (Unlock key) s) !! key = Some rest.
Proof.
  intros Hl Hq. rewrite after_cases, unlock_cases, Hl, Hq. simpl.
  by rewrite !lookup_insert_eq.
Qed.

(** X6. Waiters are served first come, first served: when a key has an
    owner and its queue is [q], the caller at position [i] of [q] is the
    owner after [i + 1] calls of [unlock], and the callers behind it are
    then the queue, in the same order. *)
Theorem unlock_serves_in_order key i :
  ∀ s owner q waiter,
    locks s !! key = Some owner →
    lock_queues s !! key = Some q →
    q !! i = Some waiter →
    let s' := (run (replicate (S i) (Unlock key)) s).2 in
    locks s' !! key = Some waiter ∧
    lock_queues s' !! key = Some (drop (S i) q).
Proof.
  induction i as [|i IH]; intros s owner q waiter Hl Hq Hi;
    (destruct q as [|c q]; [done|]); cbv zeta;
    change (replicate (S ?n) ?x) with (x :: replicate n x);
    rewrite run_cons_state;
    destruct (unlock_hand_over s key owner c q Hl Hq) as [Hl' Hq'].
  - injection Hi as ->. done.
  - by apply (IH _ c q waiter).
Qed.

Lemma unlock_serves_in_order_witness :
  locks (run [Unlock "k1"; Unlock "k1"] three_waiting).2 !! "k1" = Some "C" ∧
  lock_queues (run [Unlock "k1"; Unlock "k1"] three_waiting).2 !! "k1"
  = Some ["D"].
Proof.
  apply (unlock_serves_in_order "k1" 1 three_waiting "A" ["B"; "C"; "D"] "C");
    by vm_compute.
Defined.

(** X7. Once every waiter has been served, one more [unlock] leaves the
    key without owner: after [length q + 1] calls of [unlock] on a key
    that had an owner and the queue [q], the key is unlocked and its
    queue entry is the empty list. *)
Theorem unlock_drains key :
  ∀ q s owner,
    locks s !! key = Some owner →
    lock_queues s !! key = Some q →
    let s' := (run (replicate (S (length q)) (Unlock key)) s).2 in
    locks s' !! key = None ∧ lock_queues s' !! key = Some [].
Proof.
  induction q as [|c q IH]; intros s owner Hl Hq.
  - cbv zeta. simpl length. simpl replicate. rewrite run_cons_state. simpl.
    rewrite after_cases, unlock_cases, Hl, Hq. simpl.
    by rewrite lookup_delete_eq.
  - cbv zeta. simpl length.
    change (replicate (S (S (length q))) (Unlock key))
      with (Unlock key :: replicate (S (length q)) (Unlock key)).
    rewrite run_cons_state.
    destruct (unlock_hand_over s key owner c q Hl Hq) as [Hl' Hq'].
    by apply (IH _ c).
Qed.

Lemma unlock_drains_witness :
  locks (run (replicate 4 (Unlock "k1")) three_waiting).2 !! "k1" = None ∧
  lock_queues (run (replicate 4 (Unlock "k1")) three_waiting).2 !! "k1"
  = Some [].
Proof.
  apply (unlock_drains "k1" ["B"; "C"; "D"] three_waiting "A"); by vm_compute.
Defined.

(** ** What a call leaves alone *)

(** X8. A call touches the entries of its own key only: for every other
    key the record, the modification count, the owner and the queue are
    after the call what they were before it, whatever the call answers. *)
Theorem other_keys_untouched c s k :
  call_key c ≠ Some k →
  records (after c s) !! k = records s !! k ∧
  modification_count (after c s) !! k = modification_count s !! k ∧
  locks (after c s) !! k = locks s !! k ∧
  lock_queues (after c s) !! k = lock_queues s !! k.
Proof.
  intros Hk. rewrite after_cases.
  destruct c; try done; simpl in Hk;
    (assert (key ≠ k) as Hne by congruence); method_cases;
    by rewrite ?lookup_insert_ne, ?lookup_delete_ne by done.
Qed.

Lemma other_keys_untouched_witness :
  records (after (DeleteByCaller "k1" "f" "A") B_waiting) !! "k2"
    = records B_waiting !! "k2" ∧
  modification_count (after (DeleteByCaller "k1" "f" "A") B_waiting) !! "k2"
    = modification_count B_waiting !! "k2" ∧
  locks (after (DeleteByCaller "k1" "f" "A") B_waiting) !! "k2"
    = locks B_waiting !! "k2" ∧
  lock_queues (after (DeleteByCaller "k1" "f" "A") B_waiting) !! "k2"
    = lock_queues B_waiting !! "k2".
Proof.
  apply (other_keys_untouched (DeleteByCaller "k1" "f" "A") B_waiting "k2").
  vm_compute. discriminate.
Defined.

(** X9. Data and locking are kept apart.  Only [set_or_inc_by_caller] and
    [delete_by_caller] ever change records or modification counts:
    [inc], [delete], [get], [lock], [unlock] and [top_n_keys] leave both
    as they were.  [set_or_inc_by_caller] never changes an owner or a
    queue, and [delete_by_caller] changes them only by removing the
    entries of its key. *)
Theorem data_and_locking_apart s :
  (∀ c, is_mutation c = false →
        records (after c s) = records s ∧
        modification_count (after c s) = modification_count s) ∧
  (∀ key field value caller_id,
     let s' := after (SetOrIncByCaller key field value caller_id) s in
     locks s' = locks s ∧ lock_queues s' = lock_queues s) ∧
  (∀ key field caller_id,
     let s' := after (DeleteByCaller key field caller_id) s in
     (locks s' = locks s ∧ lock_queues s' = lock_queues s) ∨
     (locks s' = delete key (locks s) ∧
      lock_queues s' = delete key (lock_queues s) ∧
      records s' !! key = None)).
Proof.
  split_and!.
  - intros c Hc. rewrite after_cases. destruct c; try done; by method_cases.
  - intros key field value caller_id. cbv zeta. rewrite after_cases.
    by method_cases.
  - intros key field caller_id. cbv zeta. rewrite after_cases.
    method_cases; try by left.
    right. by rewrite lookup_delete_eq.
Qed.

Lemma data_and_locking_apart_witness :
  records (after (Unlock "k1") B_waiting) = records B_waiting ∧
  modification_count (after (Unlock "k1") B_waiting)
  = modification_count B_waiting.
Proof.
  apply (proj1 (data_and_locking_apart B_waiting) (Unlock "k1")).
  reflexivity.
Defined.

(** ** Writing and reading back *)

(** The store a write by the holder of the lock leaves, in one formula: a
    missing record counts as empty, a missing field as 0 and a missing
    count as 0. *)
Lemma set_or_inc_by_holder s key field delta caller_id :
  locks s !! key = Some caller_id →
  counts_mirror_records s →
  set_or_inc_by_caller key field delta caller_id s =
  (Return (Some (default 0 (field_value s key field) + delta)),
   Db (<[key := <[field := default 0 (field_value s key field) + delta]>
                   (default ∅ (records s !! key))]> (records s))
      (<[key := default 0 (modification_count s !! key) + 1]>
         (modification_count s))
      (locks s) (lock_queues s)).
Proof.
  unfold counts_mirror_records, field_value. intros Hl Hc.
  rewrite set_or_inc_by_caller_cases, Hl. rewrite decide_True by done.
  destruct (records s !! key) as [r|] eqn:Hr; simpl.
  - assert (is_Some (modification_count s !! key)) as [count Hcount].
    { apply elem_of_dom. rewrite Hc. apply elem_of_dom. eauto. }
    rewrite Hcount. simpl. by destruct (r !! field).
  - assert (modification_count s !! key = None) as ->.
    { apply not_elem_of_dom. rewrite Hc. by apply not_elem_of_dom. }
    simpl. unfold with_modification_count, with_records; simpl.
    by rewrite insert_empty.
Qed.

(** X10. A write by the holder of the lock can be read back: the answer of
    [set_or_inc_by_caller] is the old value of the field (0 if the field
    or the record is missing) plus [delta], [get] then answers that value,
    the other fields of the record read as before, and the modification
    count of the key has grown by one (from 0 for a new record). *)
Theorem write_then_read s key field delta caller_id :
  locks s !! key = Some caller_id →
  counts_mirror_records s →
  let new_value := default 0 (field_value s key field) + delta in
  let s' := after (SetOrIncByCaller key field delta caller_id) s in
  (set_or_inc_by_caller key field delta caller_id s).1
    = Return (Some new_value) ∧
  get key field s' = (Return (Some new_value), s') ∧
  (∀ other, other ≠ field →
     (get key other s').1 = (get key other s).1) ∧
  modification_count s' !! key
    = Some (default 0 (modification_count s !! key) + 1).
Proof.
  intros Hl Hc. cbv zeta. rewrite after_cases.
  rewrite (set_or_inc_by_holder s key field delta caller_id Hl Hc). simpl.
  split_and!; [done|..].
  - rewrite get_cases. simpl.
    by repeat (rewrite lookup_insert_eq; simpl).
  - intros other Hne. rewrite !get_cases. simpl.
    rewrite lookup_insert_eq. simpl. rewrite lookup_insert_ne by done.
    by destruct (records s !! key).
  - by rewrite lookup_insert_eq.
Qed.

Lemma write_then_read_witness :
  (set_or_inc_by_caller "k1" "f" 2 "A" held_by_A).1 = Return (Some 7) ∧
  (get "k1" "f" (after (SetOrIncByCaller "k1" "f" 2 "A") held_by_A)).1
    = Return (Some 7).
Proof.
  destruct (write_then_read held_by_A "k1" "f" 2 "A") as (H1 & H2 & _);
    [by vm_compute..|].
  split; [exact H1|]. by rewrite H2.
Defined.

(** X11. Increments add up: two writes of [d1] and [d2] to the same field
    by the holder of the lock answer [old + d1] and [old + d1 + d2], leave
    the records as one write of [d1 + d2] does, and count as two
    modifications. *)
Theorem increments_add_up s key field d1 d2 caller_id :
  locks s !! key = Some caller_id →
  counts_mirror_records s →
  let old := default 0 (field_value s key field) in
  let twice := run [SetOrIncByCaller key field d1 caller_id;
                    SetOrIncByCaller key field d2 caller_id] s in
  twice.1 = [Return (VInt (old + d1)); Return (VInt (old + d1 + d2))] ∧
  records twice.2
    = records (after (SetOrIncByCaller key field (d1 + d2) caller_id) s) ∧
  modification_count twice.2 !! key
    = Some (default 0 (modification_count s !! key) + 2).
Proof.
  intros Hl Hc. cbv zeta. rewrite after_cases.
  pose proof (after_counts_mirror_records
                (SetOrIncByCaller key field d1 caller_id) s Hc) as Hc1.
  rewrite after_cases in Hc1.
  simpl. unfold perform, bind, ret.
  rewrite (set_or_inc_by_holder s key field d1 caller_id Hl Hc) in *.
  simpl in Hc1.
  rewrite (set_or_inc_by_holder _ key field d2 caller_id) by done.
  rewrite (set_or_inc_by_holder s key field (d1 + d2) caller_id Hl Hc).
  unfold field_value; simpl. rewrite !lookup_insert_eq. simpl.
  rewrite !lookup_insert_eq. simpl.
  rewrite !insert_insert_eq.
  split_and!; [done| |f_equal; lia].
  do 2 f_equal. lia.
Qed.

Lemma increments_add_up_witness :
  (run [SetOrIncByCaller "k1" "f" 2 "A"; SetOrIncByCaller "k1" "f" 3 "A"]
       held_by_A).1
  = [Return (VInt (5 + 2)); Return (VInt (5 + 2 + 3))].
Proof.
  apply (increments_add_up held_by_A "k1" "f" 2 3 "A"); by vm_compute.
Defined.

(** ** Deleting and reading back *)

(** X12. After [delete_by_caller] by the holder of the lock the field is
    gone: the answer is [True] exactly when [get] found the field before,
    [get] answers [None] for it afterwards, and the other fields of the
    record read as before (also when the record itself was removed, since
    it then had no other field). *)
Theorem delete_then_read s key field caller_id :
  locks s !! key = Some caller_id →
  counts_mirror_records s →
  let s' := after (DeleteByCaller key field caller_id) s in
  (delete_by_caller key field caller_id s).1
    = Return (bool_decide (is_Some (field_value s key field))) ∧
  get key field s' = (Return None, s') ∧
  (∀ other, other ≠ field → (get key other s').1 = (get key other s).1).
Proof.
  unfold counts_mirror_records, field_value. intros Hl Hc. cbv zeta.
  rewrite after_cases, !delete_by_caller_cases, Hl.
  rewrite decide_True by done.
  destruct (records s !! key) as [r|] eqn:Hr; simpl.
  2: { split_and!; [done|..]; intros; by rewrite ?get_cases, ?Hr. }
  destruct (r !! field) as [old|] eqn:Hf; simpl.
  2: { split_and!; [done|..]; intros; rewrite ?get_cases, ?Hr; simpl;
       by rewrite ?Hf. }
  assert (is_Some (modification_count s !! key)) as [count Hcount].
  { apply elem_of_dom. rewrite Hc. apply elem_of_dom. eauto. }
  rewrite Hcount. destruct (decide (delete field r = ∅)) as [Hempty|Hfields];
    simpl; (split_and!; [done|..]).
  - rewrite get_cases. simpl. by rewrite lookup_delete_eq.
  - intros other Hne. rewrite !get_cases. simpl.
    rewrite lookup_delete_eq, Hr. simpl.
    by rewrite <- (lookup_delete_ne r field other), Hempty by done.
  - rewrite get_cases. simpl. rewrite lookup_insert_eq. simpl.
    by rewrite lookup_delete_eq.
  - intros other Hne. rewrite !get_cases. simpl.
    rewrite lookup_insert_eq, Hr. simpl. by rewrite lookup_delete_ne.
Qed.

Lemma delete_then_read_witness :
  (delete_by_caller "k1" "f" "A" held_by_A).1 = Return true ∧
  (get "k1" "f" (after (DeleteByCaller "k1" "f" "A") held_by_A)).1
    = Return None.
Proof.
  destruct (delete_then_read held_by_A "k1" "f" "A") as (H1 & H2 & _);
    [by vm_compute..|].
  split; [exact H1|]. by rewrite H2.
Defined.

(** ** Invariants under every sequence of calls *)

(** X13. The invariant of the store is kept by every sequence of calls
    of the eight methods, and on a store that satisfies it no call
    raises.  The invariant says: records and modification counts have the
    same keys; no record is empty; only existing records are locked or
    have a queue entry; no caller is queued twice for a key; the owner of
    a key is not in its queue; a queue with waiters belongs to a locked
    key. *)
Theorem calls_keep_store_inv s cs :
  store_inv s →
  store_inv (run cs s).2 ∧ Forall returns (run cs s).1.
Proof.
  intros Hinv. split; [by apply run_store_inv|].
  apply run_returns, Hinv.
Qed.

Lemma calls_keep_store_inv_witness :
  store_inv
    (run [Lock "k1" "B"; Unlock "k1"; DeleteByCaller "k1" "f" "B"] held_by_A).2.
Proof.
  apply (calls_keep_store_inv held_by_A
           [Lock "k1" "B"; Unlock "k1"; DeleteByCaller "k1" "f" "B"]).
  split; red; simpl.
  - by vm_compute.
  - by apply map_Forall_singleton, insert_non_empty.
  - by vm_compute.
  - by vm_compute.
  - apply map_Forall_empty.
  - by apply map_Forall_singleton, not_elem_of_nil.
  - apply map_Forall_empty.
Defined.

Lemma after_counts_positive c s : counts_positive s → counts_positive (after c s).
Proof.
  unfold counts_positive. intros Hp. rewrite after_cases.
  destruct c; try done; method_cases; try done.
  - apply map_Forall_insert_2; [|done].
    match goal with H : modification_count s !! _ = Some _ |- _ =>
      apply Hp in H; lia end.
  - apply map_Forall_insert_2; [|done].
    match goal with H : modification_count s !! _ = Some _ |- _ =>
      apply Hp in H; lia end.
  - by apply map_Forall_insert_2.
  - by apply map_Forall_delete.
  - apply map_Forall_insert_2; [|done].
    match goal with H : modification_count s !! _ = Some _ |- _ =>
      apply Hp in H; lia end.
Qed.

(** X14. Modification counts start at 1 and only grow while the record
    lives: on a store where records and counts have the same keys and
    every stored count is at least 1, both are still so after any sequence
    of calls, and a count that is still there after a call is either
    unchanged or has grown by exactly one. *)
Theorem counts_stay_positive s cs :
  counts_mirror_records s →
  counts_positive s →
  counts_mirror_records (run cs s).2 ∧
  counts_positive (run cs s).2 ∧
  (∀ c key before after_,
     modification_count s !! key = Some before →
     modification_count (after c s) !! key = Some after_ →
     after_ = before ∨ after_ = before + 1).
Proof.
  intros Hc Hp. split_and!.
  - by apply run_invariant; [apply after_counts_mirror_records|].
  - by apply run_invariant; [apply after_counts_positive|].
  - unfold counts_mirror_records in Hc.
    intros c k before after_ Hb. rewrite after_cases.
    destruct c; try (intros; left; congruence); method_cases;
      try (intros; left; congruence);
      (destruct (decide (key = k)) as [->|Hne];
       [|rewrite ?lookup_insert_ne, ?lookup_delete_ne by done;
         intros; left; congruence]);
      rewrite ?lookup_insert_eq, ?lookup_delete_eq;
      intros; simplify_eq; auto.
    in_dom. set_solver.
Qed.

Lemma counts_stay_positive_witness :
  counts_positive
    (run [SetOrIncByCaller "k1" "f" 1 "A"; SetOrIncByCaller "k1" "g" 1 "A"]
         held_by_A).2.
Proof.
  refine (proj1 (proj2 (counts_stay_positive held_by_A
    [SetOrIncByCaller "k1" "f" 1 "A"; SetOrIncByCaller "k1" "g" 1 "A"] _ _))).
  - by vm_compute.
  - by apply map_Forall_singleton.
Defined.

(** ** A record whose count is missing *)

(** X15. The two writing methods are not undone when they raise: if the
    caller holds the lock of a record that has no entry in
    [self.modification_count], [set_or_inc_by_caller] raises [KeyError]
    after it has written the field, and [delete_by_caller] of an existing
    field raises [KeyError] after it has removed the field; counts, owners
    and queues are as before. *)
Theorem write_without_count s key field delta caller_id r :
  locks s !! key = Some caller_id →
  records s !! key = Some r →
  modification_count s !! key = None →
  set_or_inc_by_caller key field delta caller_id s =
    (Raise KeyError,
     Db (<[key := <[field := default 0 (r !! field) + delta]> r]> (records s))
        (modification_count s) (locks s) (lock_queues s)) ∧
  (is_Some (r !! field) →
   delete_by_caller key field caller_id s =
     (Raise KeyError,
      Db (<[key := delete field r]> (records s))
         (modification_count s) (locks s) (lock_queues s))).
Proof.
  intros Hl Hr Hc. split.
  - rewrite set_or_inc_by_caller_cases, Hl, Hr, Hc.
    rewrite decide_True by done. simpl. by destruct (r !! field).
  - intros [old Hf]. rewrite delete_by_caller_cases, Hl, Hr, Hf, Hc.
    by rewrite decide_True.
Qed.

Lemma write_without_count_witness :
  set_or_inc_by_caller "k1" "f" 1 "A" k1_without_count =
  (Raise KeyError, Db {["k1" := {["f" := 6]}]} ∅ {["k1" := "A"]} ∅).
Proof.
  refine (proj1 (write_without_count k1_without_count "k1" "f" 1 "A"
                   {["f" := 5]} _ _ _)); by vm_compute.
Defined.

(** ** Ranking *)

Lemma ascii_compare_lt_trans a b c :
  Ascii.compare a b = Lt → Ascii.compare b c = Lt → Ascii.compare a c = Lt.
Proof. unfold Ascii.compare. rewrite !N.compare_lt_iff. lia. Qed.

Lemma ascii_compare_refl a : Ascii.compare a a = Eq.
Proof. apply N.compare_refl. Qed.

Lemma string_compare_lt_trans a :
  ∀ b c, String.compare a b = Lt → String.compare b c = Lt →
         String.compare a c = Lt.
Proof.
  induction a as [|x a IH]; intros [|y b] [|z c]; simpl; try done.
  destruct (Ascii.compare x y) eqn:Hxy; try done;
    destruct (Ascii.compare y z) eqn:Hyz; try done.
  - apply Ascii.compare_eq_iff in Hxy, Hyz. subst.
    rewrite ascii_compare_refl. apply IH.
  - apply Ascii.compare_eq_iff in Hxy. subst. by rewrite Hyz.
  - apply Ascii.compare_eq_iff in Hyz. subst. by rewrite Hxy.
  - by rewrite (ascii_compare_lt_trans x y z).
Qed.

Lemma string_compare_refl a : String.compare a a = Eq.
Proof. induction a as [|x a IH]; simpl; [done|]. by rewrite ascii_compare_refl. Qed.

Lemma string_leb_trans a b c :
  String.leb a b = true → String.leb b c = true → String.leb a c = true.
Proof.
  unfold String.leb.
  destruct (String.compare a b) eqn:Hab; try done;
    destruct (String.compare b c) eqn:Hbc; try done; intros _ _.
  - apply String.compare_eq_iff in Hab, Hbc. subst.
    by rewrite string_compare_refl.
  - apply String.compare_eq_iff in Hab. subst. by rewrite Hbc.
  - apply String.compare_eq_iff in Hbc. subst. by rewrite Hab.
  - by rewrite (string_compare_lt_trans a b c).
Qed.

Lemma rank_le_total : Total rank_le.
Proof.
  intros [k1 c1] [k2 c2]. unfold rank_le. simpl.
  destruct (String.leb_total k1 k2); destruct (Z.lt_total c1 c2) as [?|[?|?]];
    (left; lia) || (right; lia) || auto with lia.
Qed.

Lemma rank_le_trans : Transitive rank_le.
Proof.
  intros [k1 c1] [k2 c2] [k3 c3]. unfold rank_le. simpl.
  intros [?|[? H12]] [?|[? H23]]; try (left; lia).
  right. split; [lia|]. by apply (string_leb_trans k1 k2 k3).
Qed.

Lemma rank_le_antisymm : AntiSymm (=) rank_le.
Proof.
  intros [k1 c1] [k2 c2]. unfold rank_le. simpl.
  intros [?|[? H12]] [?|[? H21]]; try lia.
  f_equal; [by apply String.leb_antisym|lia].
Qed.

Lemma top_n_keys_cases n s :
  top_n_keys n s =
  (Return (slice_to n
     (format_entry <$> merge_sort rank_le (map_to_list (modification_count s)))),
   s).
Proof. done. Qed.

Lemma slice_to_prefix {A} n (l : list A) : slice_to n l `prefix_of` l.
Proof. unfold slice_to. case_decide; apply prefix_take. Qed.

(** X16. [top_n_keys] never raises and never changes the store.  For
    [n >= 0] it returns [min n size] entries, where [size] is the number
    of keys that have a modification count, hence all of them when
    [n >= size]; for a negative [n] the slice [result[:n]] drops the last
    [-n] entries instead, so [size - (-n)] entries are returned (none if
    that is negative). *)
Theorem top_n_keys_length n s :
  ∃ result,
    top_n_keys n s = (Return result, s) ∧
    length result =
      (if decide (0 ≤ n)
       then (Z.to_nat n `min` size (modification_count s))%nat
       else (size (modification_count s) - Z.to_nat (- n))%nat) ∧
    (Z.of_nat (size (modification_count s)) ≤ n →
     result ≡ₚ format_entry <$> map_to_list (modification_count s)).
Proof.
  rewrite top_n_keys_cases. eexists. split; [done|].
  assert (length (format_entry <$>
            merge_sort rank_le (map_to_list (modification_count s)))
          = size (modification_count s)) as Hlen.
  { by rewrite length_fmap, merge_sort_Permutation, length_map_to_list. }
  unfold slice_to. split.
  - case_decide; rewrite length_take, Hlen; lia.
  - intros Hn. rewrite decide_True by lia.
    rewrite take_ge by lia. by rewrite merge_sort_Permutation.
Qed.

(** X17. The entries [top_n_keys] formats are the items of
    [self.modification_count] in the one order that puts a higher count
    first and, for equal counts, the smaller key first (keys compared as
    Python compares strings); the result is the slice [[:n]] of that
    list. The order of the result therefore does not depend on the order
    in which keys were inserted. *)
Theorem top_n_keys_order n s :
  (∀ k1 c1 k2 c2,
     rank_le (k1, c1) (k2, c2) ↔
     c2 < c1 ∨ (c1 = c2 ∧ String.leb k1 k2 = true)) ∧
  ∃ entries,
    entries ≡ₚ map_to_list (modification_count s) ∧
    StronglySorted rank_le entries ∧
    (∀ other, other ≡ₚ map_to_list (modification_count s) →
              StronglySorted rank_le other → other = entries) ∧
    top_n_keys n s = (Return (slice_to n (format_entry <$> entries)), s).
Proof.
  split.
  { intros k1 c1 k2 c2. unfold rank_le. simpl. split; intros [?|[? ?]];
      (left; lia) || (right; split; [lia|done]). }
  exists (merge_sort rank_le (map_to_list (modification_count s))).
  pose proof rank_le_total. pose proof rank_le_trans.
  pose proof rank_le_antisymm.
  split_and!.
  - apply merge_sort_Permutation.
  - by apply StronglySorted_merge_sort.
  - intros other Hperm Hsorted.
    apply (StronglySorted_unique rank_le); [done| |].
    + by apply StronglySorted_merge_sort.
    + by rewrite merge_sort_Permutation.
  - apply top_n_keys_cases.
Qed.

(** X18. When [top_n_keys] returns at least one entry, the first one
    names a key whose modification count is the highest of all, and the
    smallest key among those with that count. *)
Theorem top_key_is_maximal n s first rest :
  (top_n_keys n s).1 = Return (first :: rest) →
  ∃ key count,
    modification_count s !! key = Some count ∧
    first = format_entry (key, count) ∧
    ∀ k c, modification_count s !! k = Some c →
           c < count ∨ (c = count ∧ String.leb key k = true).
Proof.
  rewrite top_n_keys_cases. simpl. intros [= Hresult].
  pose proof rank_le_total. pose proof rank_le_trans.
  pose proof (StronglySorted_merge_sort rank_le
                (map_to_list (modification_count s))) as Hsorted.
  pose proof (merge_sort_Permutation rank_le
                (map_to_list (modification_count s))) as Hperm.
  destruct (slice_to_prefix n
    (format_entry <$> merge_sort rank_le (map_to_list (modification_count s))))
    as [tail Htail].
  rewrite Hresult in Htail.
  destruct (merge_sort rank_le (map_to_list (modification_count s)))
    as [|[key count] entries]; [done|].
  injection Htail as Hfirst _.
  apply StronglySorted_cons in Hsorted as [Hhead _].
  exists key, count. split_and!.
  - apply elem_of_map_to_list. rewrite <- Hperm. by left.
  - done.
  - intros k c Hkc. apply elem_of_map_to_list in Hkc.
    rewrite <- Hperm in Hkc. apply elem_of_cons in Hkc as [[= -> ->]|Hin].
    + right. split; [done|]. by destruct (String.leb_total key key).
    + rewrite Forall_forall in Hhead. specialize (Hhead _ Hin).
      unfold rank_le in Hhead; simpl in Hhead.
      destruct Hhead as [?|[? ?]]; [left; lia|right; split; [lia|done]].
Qed.

Lemma top_key_is_maximal_witness :
  ∃ key count,
    modification_count ranked !! key = Some count ∧
    "a(3)" = format_entry (key, count) ∧
    ∀ k c, modification_count ranked !! k = Some c →
           c < count ∨ (c = count ∧ String.leb key k = true).
Proof.
  apply (top_key_is_maximal 2 ranked "a(3)" ["b(3)"]). by vm_compute.
Defined.

Lemma top_n_keys_length_witness :
  ∃ result,
    top_n_keys 5 ranked = (Return result, ranked) ∧
    result ≡ₚ format_entry <$> map_to_list (modification_count ranked).
Proof.
  destruct (top_n_keys_length 5 ranked) as (result & Hresult & _ & Hall).
  exists result. split; [exact Hresult|]. apply Hall. by vm_compute.
Defined.

Lemma top_n_keys_order_witness : rank_le ("a", 3) ("b", 3).
Proof.
  apply (proj1 (top_n_keys_order 2 ranked) "a" 3 "b" 3).
  right. split; reflexivity.
Defined.

Lemma lock_answers_witness :
  locks (lock "k1" "C" B_waiting).2 !! "k1" = Some "A".
Proof.
  destruct (lock_answers B_waiting "k1" "C") as (answer & _ & _ & _ & _ & _ & Hkeep & _).
  apply Hkeep. by vm_compute.
Defined.

(** ** Waiting, then writing *)

(** X19. The hand-over moves the right to write: while [owner] holds the
    key and [waiter] is first in its queue, a write by [waiter] is
    refused; after [unlock] the same write by [waiter] succeeds, and a
    write by the former owner is refused. *)
Theorem waiter_writes_after_hand_over s key field delta owner waiter rest :
  locks s !! key = Some owner →
  lock_queues s !! key = Some (waiter :: rest) →
  owner ≠ waiter →
  counts_mirror_records s →
  let s' := after (Unlock key) s in
  set_or_inc_by_caller key field delta waiter s = (Return None, s) ∧
  (set_or_inc_by_caller key field delta waiter s').1
    = Return (Some (default 0 (field_value s key field) + delta)) ∧
  set_or_inc_by_caller key field delta owner s' = (Return None, s').
Proof.
  intros Hl Hq Hne Hc. cbv zeta.
  pose proof (after_counts_mirror_records (Unlock key) s Hc) as Hc'.
  destruct (unlock_hand_over s key owner waiter rest Hl Hq) as [Hl' _].
  split_and!.
  - rewrite set_or_inc_by_caller_cases, Hl. by rewrite decide_False.
  - rewrite (set_or_inc_by_holder _ key field delta waiter Hl' Hc'). simpl.
    unfold field_value. rewrite after_cases, unlock_cases, Hl, Hq. done.
  - rewrite set_or_inc_by_caller_cases, Hl'. by rewrite decide_False.
Qed.

Lemma waiter_writes_after_hand_over_witness :
  set_or_inc_by_caller "k1" "f" 1 "B" B_waiting = (Return None, B_waiting) ∧
  (set_or_inc_by_caller "k1" "f" 1 "B" (after (Unlock "k1") B_waiting)).1
    = Return (Some (default 0 (field_value B_waiting "k1" "f") + 1)) ∧
  set_or_inc_by_caller "k1" "f" 1 "A" (after (Unlock "k1") B_waiting)
    = (Return None, after (Unlock "k1") B_waiting).
Proof.
  apply (waiter_writes_after_hand_over B_waiting "k1" "f" 1 "A" "B" []);
    by vm_compute.
Defined.

(** ** Keys that have no record *)

Lemma after_no_new_record c s :
  locked_keys_exist s → dom (records (after c s)) ⊆ dom (records s).
Proof.
  unfold locked_keys_exist. intros Hl. rewrite after_cases.
  destruct c; try done; method_cases; try done;
    rewrite ?dom_insert_L, ?dom_delete_L; in_dom; set_solver.
Qed.

(** X20. No call creates a record.  On a store where only existing
    records are locked, whatever calls are made, the keys that have a
    record afterwards had one before: a key without record stays without
    record, [get] keeps answering [None] for it and [lock] keeps answering
    ["invalid_request"]. *)
Theorem records_never_created s cs :
  locked_keys_exist s →
  let s' := (run cs s).2 in
  dom (records s') ⊆ dom (records s) ∧
  ∀ key, records s !! key = None →
    (∀ field, get key field s' = (Return None, s')) ∧
    (∀ caller_id,
       lock key caller_id s' = (Return (Some "invalid_request"), s')).
Proof.
  intros Hl. cbv zeta.
  assert (locked_keys_exist (run cs s).2 ∧
          dom (records (run cs s).2) ⊆ dom (records s)) as [_ Hdom].
  { apply (run_invariant
             (λ s', locked_keys_exist s' ∧ dom (records s') ⊆ dom (records s)));
      [|done].
    intros c s1 [Hl1 Hd1]. split; [by apply after_locked_keys_exist|].
    pose proof (after_no_new_record c s1 Hl1). set_solver. }
  split; [done|]. intros key Hkey.
  assert (records (run cs s).2 !! key = None) as Hnone.
  { apply not_elem_of_dom. apply not_elem_of_dom in Hkey. set_solver. }
  split.
  - intros field. rewrite get_cases. unfold field_value. by rewrite Hnone.
  - intros caller_id. by rewrite lock_cases, Hnone.
Qed.

Lemma records_never_created_witness :
  dom (records (run [DeleteByCaller "k1" "f" "A"; Lock "k1" "B";
                     SetOrIncByCaller "k1" "f" 1 "B"] B_waiting).2)
  ⊆ dom (records B_waiting).
Proof.
  refine (proj1 (records_never_created B_waiting
    [DeleteByCaller "k1" "f" "A"; Lock "k1" "B";
     SetOrIncByCaller "k1" "f" 1 "B"] _)).
  by vm_compute.
Defined.
